(** * Verification of [day9/quick_sort.py]

    The module defines the recursive driver [quick_sort(array, low, high)],
    which delegates the rearrangement to [partition_array], imported from
    the module [partition1] under the name [pa], and ends with a small
    demonstration script on the list [l1].

    Python integers are modelled by [Z]; the single list object the
    program works on is modelled by its contents, a [list Z], threaded
    through every call (the calls mutate it in place).  *)

From Stdlib Require Import ZArith String.
From stdpp Require Import base tactics option list sorting.

Local Open Scope Z_scope.

(** ** Completions and the world *)

(** The exceptions that can occur in the modelled fragment. *)
Inductive exn : Set :=
| IndexError
| TypeError.

(** How a call or a statement completes: with a value, or by raising. *)
Inductive completion (A : Type) : Type :=
| Normal (v : A)
| Raised (e : exn).
Arguments Normal {A} v.
Arguments Raised {A} e.

(** The world a call runs in: the contents of the list object, and a
    record of the ranges on which the partitioner has been invoked so far
    (ghost instrumentation, oldest call first). *)
Record world : Type := World {
  cells : list Z;
  pa_log : list (Z * Z)
}.

(** Computations: a world transformer that may complete normally, raise,
    or exhaust the recursion fuel of the model ([None]). *)
Definition M (A : Type) : Type := world -> option (completion A * world).

Definition ret {A : Type} (v : A) : M A :=
  fun w => Some (Normal v, w).

Definition bind {A B : Type} (m : M A) (k : A -> M B) : M B :=
  fun w =>
    match m w with
    | None => None
    | Some (Raised e, w') => Some (Raised e, w')
    | Some (Normal v, w') => k v w'
    end.

Notation "x <- m ;; k" := (bind m (fun x => k))
  (at level 100, m at next level, right associativity).
Notation "m ;;; k" := (bind m (fun _ => k))
  (at level 100, right associativity).

(** The type of the imported partitioner: from the contents of the list and
    a range it yields a completion (the pivot index, or an exception) and
    the contents it leaves behind.  A call of the partitioner is taken to
    complete; what it returns and what it does to the list is left open. *)
Definition partitioner : Type := list Z -> Z -> Z -> completion Z * list Z.

(** ** Values of the demonstration script *)

(** The values that occur in the script: integer literals and the list. *)
Inductive value : Type :=
| VInt (n : Z)
| VList (contents : list Z).

(** The builtin [len]: defined on lists, a [TypeError] on integers. *)
Definition py_len (v : value) : completion Z :=
  match v with
  | VList contents => Normal (Z.of_nat (length contents))
  | VInt _ => Raised TypeError
  end.

(** A line written by [print(f'<text>{<value>}')]. *)
Definition line : Type := (string * value)%type.

(** The list literal bound to [l1]. *)
Definition l1 : list Z := [34; 223; 22; 31; 1; 100; 50; 40; 22; 72].

(** ** The driver *)

Section Driver.

Variable pa : partitioner.

(** The call [pa(array, low, high)]. *)
Definition call_pa (low high : Z) : M Z :=
  fun w =>
    let (r, cells') := pa (cells w) low high in
    Some (r, World cells' (pa_log w ++ [(low, high)])).

(** [quick_sort(array, low, high)]; [array] always denotes the one list
    object of the world.  The fuel bounds the nesting depth of the
    recursion; [None] means that the depth given was not enough. *)
Fixpoint quick_sort (fuel : nat) (low high : Z) : M unit :=
  match fuel with
  | O => fun _ => None
  | S fuel' =>
      if high >? low then
        pivot_index <- call_pa low high ;;
        quick_sort fuel' low (pivot_index - 1) ;;;
        quick_sort fuel' (pivot_index + 1) high
      else ret tt
  end.

(** The module body after the import, statement by statement:
    [l1 = [...]], [print(f'before sorting: {l1}')],
    [quick_sort(l1, 0, len(11)-1)], [print(f'after sorting: {11}')].
    The arguments of the call are evaluated before the call is made.
    The result is the completion of the script, the final world and the
    lines printed. *)
Definition module_body (fuel : nat)
  : option (completion unit * world * list line) :=
  let w0 := World l1 [] in
  let out1 := [("before sorting: "%string, VList (cells w0))] in
  match py_len (VInt 11) with
  | Raised e => Some (Raised e, w0, out1)
  | Normal n =>
      match quick_sort fuel 0 (n - 1) w0 with
      | None => None
      | Some (Raised e, w1) => Some (Raised e, w1, out1)
      | Some (Normal _, w1) =>
          Some (Normal tt, w1, out1 ++ [("after sorting: "%string, VInt 11)])
      end
  end.

End Driver.

(** ** The partitioner *)

(** Python's index resolution on a list of length [n]: non-negative
    indices count from the front, negative ones from the back. *)
Definition py_index (n : nat) (i : Z) : option nat :=
  if bool_decide (0 <= i < Z.of_nat n) then Some (Z.to_nat i)
  else if bool_decide (- Z.of_nat n <= i < 0) then Some (Z.to_nat (Z.of_nat n + i))
  else None.

(** [a[i]] as an expression. *)
Definition getitem (a : list Z) (i : Z) : completion Z :=
  match py_index (length a) i with
  | Some k =>
      match a !! k with
      | Some x => Normal x
      | None => Raised IndexError
      end
  | None => Raised IndexError
  end.

(** [a[i] = x]. *)
Definition setitem (a : list Z) (i : Z) (x : Z) : completion (list Z) :=
  match py_index (length a) i with
  | Some k => Normal (<[k := x]> a)
  | None => Raised IndexError
  end.

(** [a[i], a[j] = a[j], a[i]]: both reads, then both writes. *)
Definition swap_items (a : list Z) (i j : Z) : completion unit * list Z :=
  match getitem a j with
  | Raised e => (Raised e, a)
  | Normal xj =>
      match getitem a i with
      | Raised e => (Raised e, a)
      | Normal xi =>
          match setitem a i xj with
          | Raised e => (Raised e, a)
          | Normal a1 =>
              match setitem a1 j xi with
              | Raised e => (Raised e, a1)
              | Normal a2 => (Normal tt, a2)
              end
          end
      end
  end.

(** The scan [for j in range(low, high)] with [n] iterations left: an
    element strictly below the pivot is swapped to the front part, whose
    last index is [i]. *)
Fixpoint scan (n : nat) (pivot : Z) (j i : Z) (a : list Z)
  : completion Z * list Z :=
  match n with
  | O => (Normal i, a)
  | S n' =>
      match getitem a j with
      | Raised e => (Raised e, a)
      | Normal x =>
          if x <? pivot then
            match swap_items a (i + 1) j with
            | (Raised e, a') => (Raised e, a')
            | (Normal _, a') => scan n' pivot (j + 1) (i + 1) a'
            end
          else scan n' pivot (j + 1) i a
      end
  end.

(** Modelled from the spec: the module [partition1], from which
    [partition_array] is imported, is not among the sources.  Section 4.1
    asks for a partitioner that draws the pivot from the range (the last
    element is one of the policies it names), rearranges the range in
    place with strict comparisons and swaps only, needs no comparison when
    [low == high], and returns the index where the pivot ends up.  This is
    that partitioner with the last element as pivot:
    [pivot = array[high]; i = low - 1;
     for j in range(low, high): if array[j] < pivot: i += 1; swap i, j;
     swap i + 1, high; return i + 1]. *)
Definition partition_array : partitioner :=
  fun array low high =>
    match getitem array high with
    | Raised e => (Raised e, array)
    | Normal pivot =>
        match scan (Z.to_nat (high - low)) pivot low (low - 1) array with
        | (Raised e, a') => (Raised e, a')
        | (Normal i, a') =>
            match swap_items a' (i + 1) high with
            | (Raised e, a'') => (Raised e, a'')
            | (Normal _, a'') => (Normal (i + 1), a'')
            end
        end
    end.

(** Modelled from the spec: section 4.1 names the first element as another
    admissible pivot policy.  This partitioner exchanges the first and the
    last element of the range and then proceeds as [partition_array], so
    that the pivot is the element that was first. *)
Definition partition_first : partitioner :=
  fun array low high =>
    match swap_items array low high with
    | (Raised e, a') => (Raised e, a')
    | (Normal _, a') => partition_array a' low high
    end.

(** ** The contract of the partitioner (spec sections 3 and 4.1) *)

(** On a range of valid indices with [low <= high] the partitioner
    returns an index. *)
Definition returns_on_valid_ranges (pa : partitioner) : Prop :=
  forall a low high,
    0 <= low -> low <= high -> high < Z.of_nat (length a) ->
    exists p a', pa a low high = (Normal p, a').

(** The index returned lies within the range given. *)
Definition pivot_index_within_range (pa : partitioner) : Prop :=
  forall a low high p a',
    low <= high -> pa a low high = (Normal p, a') -> low <= p <= high.

(** The partition invariant: after partitioning [[low, high]] with
    resulting index [p], the element at [p] is the pivot value, everything
    at [low <= i < p] is [<=] it and everything at [p < i <= high] is
    [>=] it. *)
Definition partition_invariant (pa : partitioner) : Prop :=
  forall a low high p a',
    0 <= low -> low <= high -> high < Z.of_nat (length a) ->
    pa a low high = (Normal p, a') ->
    exists pivot,
      a' !! Z.to_nat p = Some pivot /\
      (forall (i : nat) x, low <= Z.of_nat i < p -> a' !! i = Some x -> x <= pivot) /\
      (forall (i : nat) x, p < Z.of_nat i <= high -> a' !! i = Some x -> pivot <= x).

(** The partitioner keeps the length of the list and leaves every element
    outside the range it is given where it was, however it completes. *)
Definition mutates_only_within_range (pa : partitioner) : Prop :=
  forall a low high r a',
    0 <= low -> low <= high -> high < Z.of_nat (length a) ->
    pa a low high = (r, a') ->
    length a' = length a /\
    forall i : nat, ~ (low <= Z.of_nat i <= high) -> a' !! i = a !! i.

(** The partitioner only moves elements around: what it leaves is a
    permutation of what it was given. *)
Definition rearranges (pa : partitioner) : Prop :=
  forall a low high r a',
    0 <= low -> low <= high -> high < Z.of_nat (length a) ->
    pa a low high = (r, a') -> a' ≡ₚ a.

(** Modelled from the spec: [partition_array] itself is not among the
    sources, and the spec leaves its pivot policy open, so the driver is
    verified against any partitioner that meets what sections 3 and 4.1
    require of it: on a range of valid indices it returns an index within
    the range, establishes the partition invariant, and does so by
    rearranging the elements of the range in place. *)
Definition partitioner_contract (pa : partitioner) : Prop :=
  returns_on_valid_ranges pa /\
  pivot_index_within_range pa /\
  partition_invariant pa /\
  mutates_only_within_range pa /\
  rearranges pa.

(** ** Properties of the list *)

(** The sub-range [[low, high]] is in non-decreasing order. *)
Definition sorted_range (a : list Z) (low high : Z) : Prop :=
  forall (i j : nat) x y,
    low <= Z.of_nat i -> (i <= j)%nat -> Z.of_nat j <= high ->
    a !! i = Some x -> a !! j = Some y -> x <= y.

(** Adjacent elements are in non-decreasing order. *)
Definition non_decreasing (a : list Z) : Prop :=
  forall (i : nat) x y, a !! i = Some x -> a !! S i = Some y -> x <= y.

(** Every element outside [[low, high]] is where it was. *)
Definition untouched_outside (a a' : list Z) (low high : Z) : Prop :=
  forall i : nat, ~ (low <= Z.of_nat i <= high) -> a' !! i = a !! i.

(** Every range handed to the partitioner is a range of at least two
    indices inside [[low, high]]. *)
Definition calls_within (low high : Z) (calls : list (Z * Z)) : Prop :=
  Forall (fun c => low <= c.1 /\ c.1 < c.2 /\ c.2 <= high) calls.

(** The number of indices in [[low, high]]. *)
Definition range_size (low high : Z) : nat := Z.to_nat (high - low + 1).

(** The elements at the indices of [[low, high]], in order; for a range of
    valid indices this is Python's [a[low : high + 1]]. *)
Definition slice (a : list Z) (low high : Z) : list Z :=
  take (range_size low high) (drop (Z.to_nat low) a).

(** ** Partitioners that meet only part of the contract *)

(** A partitioner that returns [high] after overwriting every element of
    the range with [- high]: it returns an index within the range and
    leaves the partition invariant in place, but it does not rearrange. *)
Definition overwriting_pa : partitioner :=
  fun array low high =>
    (Normal high,
     imap (fun (i : nat) (x : Z) =>
             if bool_decide (low <= Z.of_nat i <= high) then - high else x)
          array).

(** A partitioner that returns [low] and leaves the list alone: it
    rearranges nothing, so it mutates only within its range and leaves a
    permutation, but it establishes no order. *)
Definition idle_pa : partitioner :=
  fun array low high => (Normal low, array).

(** A partitioner that writes only at the first index of its range, but
    on a range that starts at index 2 returns the index 0, which lies
    outside that range. *)
Definition stray_index_pa : partitioner :=
  fun array low high =>
    if low =? 2 then (Normal 0, array)
    else (Normal high, <[Z.to_nat low := 0]> array).

(** * Proofs *)

(** ** Lists: ranges and permutations *)

Section RangeFacts.

Implicit Types a : list Z.

(** A list splits into what lies before a range, the range, and what
    lies after it. *)
Lemma split_at_range a (l n : nat) :
  a = take l a ++ take n (drop l a) ++ drop (l + n) a.
Proof.
  rewrite <- (take_drop l a) at 1. f_equal.
  rewrite <- (take_drop n (drop l a)) at 1. f_equal.
  rewrite drop_drop. reflexivity.
Qed.

(** A permutation that fixes everything outside a range permutes the
    range: whatever is found in the range afterwards was in it before. *)
Lemma perm_within_range a a' low high :
  0 <= low ->
  length a' = length a ->
  untouched_outside a a' low high ->
  a' ≡ₚ a ->
  forall (k : nat) x,
    low <= Z.of_nat k <= high -> a' !! k = Some x ->
    exists k' : nat, low <= Z.of_nat k' <= high /\ a !! k' = Some x.
Proof.
  intros Hlow Hlen Hout Hperm k x Hk Hx.
  set (l := Z.to_nat low). set (n := Z.to_nat (high - low + 1)).
  assert (take l a' = take l a) as Hpre.
  { apply list_eq. intros i. rewrite !lookup_take.
    case_decide; [|reflexivity]. apply Hout. lia. }
  assert (drop (l + n) a' = drop (l + n) a) as Hpost.
  { apply list_eq. intros i. rewrite !lookup_drop. apply Hout. lia. }
  rewrite (split_at_range a l n), (split_at_range a' l n) in Hperm.
  rewrite Hpre, Hpost in Hperm.
  apply (inj (app _)) in Hperm. apply (inj (fun m => m ++ _)) in Hperm.
  assert (x ∈ take n (drop l a)) as Hin.
  { rewrite <- Hperm. apply list_elem_of_lookup. exists (k - l)%nat.
    rewrite lookup_take_lt by lia. rewrite lookup_drop.
    replace (l + (k - l))%nat with k by lia. exact Hx. }
  apply list_elem_of_lookup in Hin as [i Hi].
  apply lookup_take_Some in Hi as [Hi Hlt]. rewrite lookup_drop in Hi.
  exists (l + i)%nat. split; [lia | exact Hi].
Qed.

(** A range with at most one index is sorted. *)
Lemma sorted_range_short a low high : high <= low -> sorted_range a low high.
Proof.
  intros Hle i j x y Hi Hij Hj Hx Hy.
  assert (i = j) by lia. subst j. simplify_eq. lia.
Qed.

(** A list sorted over its full range is non-decreasing, and [Sorted]. *)
Lemma sorted_range_non_decreasing a :
  sorted_range a 0 (Z.of_nat (length a) - 1) -> non_decreasing a.
Proof.
  intros Hs i x y Hx Hy. apply (Hs i (S i) x y); try lia; try assumption.
  apply lookup_lt_Some in Hy. lia.
Qed.

Lemma non_decreasing_Sorted a : non_decreasing a -> Sorted Z.le a.
Proof.
  induction a as [|x a IH]; intros Hnd; constructor.
  - apply IH. intros i u v Hu Hv. apply (Hnd (S i) u v); assumption.
  - destruct a as [|y a]; constructor. apply (Hnd 0%nat x y); reflexivity.
Qed.

(** Two permutations of one list that are both non-decreasing are the
    same list. *)
Lemma non_decreasing_unique a b :
  non_decreasing a -> non_decreasing b -> a ≡ₚ b -> a = b.
Proof.
  intros Ha Hb Hperm.
  apply (Sorted_unique Z.le); auto using non_decreasing_Sorted.
Qed.

End RangeFacts.

(** ** The driver, for an arbitrary partitioner *)

Section DriverFacts.

Variable pa : partitioner.

(** One level of the recursion, with the monad unfolded. *)
Lemma quick_sort_unfold fuel low high w :
  quick_sort pa (S fuel) low high w =
    if high >? low then
      match pa (cells w) low high with
      | (Raised e, c) => Some (Raised e, World c (pa_log w ++ [(low, high)]))
      | (Normal p, c) =>
          match quick_sort pa fuel low (p - 1)
                  (World c (pa_log w ++ [(low, high)])) with
          | None => None
          | Some (Raised e, w1) => Some (Raised e, w1)
          | Some (Normal _, w1) => quick_sort pa fuel (p + 1) high w1
          end
      end
    else Some (Normal tt, w).
Proof.
  simpl. destruct (high >? low); [|reflexivity].
  unfold bind, call_pa.
  destruct (pa (cells w) low high) as [[p|e] c]; reflexivity.
Qed.

Lemma quick_sort_base_case fuel low high w :
  high <= low -> quick_sort pa (S fuel) low high w = Some (Normal tt, w).
Proof.
  intros Hle. rewrite quick_sort_unfold.
  destruct (Z.gtb_spec high low); [lia | reflexivity].
Qed.

(** With a pivot index inside the range, both recursive calls receive
    strictly fewer indices than the call that makes them. *)
Lemma subranges_shrink low high p :
  high > low -> low <= p <= high ->
  (range_size low (p - 1) < range_size low high)%nat /\
  (range_size (p + 1) high < range_size low high)%nat.
Proof. unfold range_size. lia. Qed.

Lemma quick_sort_returns_some fuel :
  pivot_index_within_range pa ->
  forall low high w,
    (Z.to_nat (high - low) < fuel)%nat ->
    exists r, quick_sort pa fuel low high w = Some r.
Proof.
  intros Hidx. induction fuel as [|fuel IH]; intros low high w Hfuel; [lia|].
  rewrite quick_sort_unfold.
  destruct (Z.gtb_spec high low) as [Hgt|Hle]; [|eauto].
  destruct (pa (cells w) low high) as [[p|e] c] eqn:Hpa; [|eauto].
  assert (low <= p <= high) as Hp by (eapply Hidx; [|exact Hpa]; lia).
  destruct (IH low (p - 1) (World c (pa_log w ++ [(low, high)])))
    as [[[[]|e1] w1] ->]; [lia| |eauto].
  apply IH. lia.
Qed.

End DriverFacts.

(** ** The driver, for a partitioner that meets its contract *)

Section DriverCorrect.

Variable pa : partitioner.

Hypothesis pa_index : pivot_index_within_range pa.
Hypothesis pa_frame : mutates_only_within_range pa.

(** Whatever the outcome, a call on a range of valid indices keeps the
    length of the list and touches nothing outside the range. *)
Lemma quick_sort_frame fuel :
  forall low high w r w',
    0 <= low -> high < Z.of_nat (length (cells w)) ->
    quick_sort pa fuel low high w = Some (r, w') ->
    length (cells w') = length (cells w) /\
    untouched_outside (cells w) (cells w') low high.
Proof.
  induction fuel as [|fuel IH]; intros low high w r w' Hlow Hhigh Hrun;
    [discriminate|].
  rewrite quick_sort_unfold in Hrun.
  destruct (Z.gtb_spec high low) as [Hgt|Hle];
    [|simplify_eq; split; [reflexivity | intros i _; reflexivity]].
  destruct (pa (cells w) low high) as [r0 c] eqn:Hpa.
  destruct (pa_frame (cells w) low high r0 c Hlow ltac:(lia) Hhigh Hpa)
    as [Hlen1 Hout1].
  destruct r0 as [p|e]; [|simplify_eq; split; assumption].
  assert (low <= p <= high) as Hp by (eapply pa_index; [|exact Hpa]; lia).
  destruct (quick_sort pa fuel low (p - 1) _) as [[r1 w1]|] eqn:Hleft;
    [|discriminate].
  apply IH in Hleft as [Hlen2 Hout2]; simpl; [|lia..].
  simpl in Hlen2, Hout2.
  destruct r1 as [[]|e1].
  - apply IH in Hrun as [Hlen3 Hout3]; [|lia..].
    split; [congruence|]. intros i Hi.
    rewrite Hout3, Hout2, Hout1 by lia. reflexivity.
  - simplify_eq. split; [congruence|]. intros i Hi.
    rewrite Hout2, Hout1 by lia. reflexivity.
Qed.

Hypothesis pa_returns : returns_on_valid_ranges pa.
Hypothesis pa_invariant : partition_invariant pa.
Hypothesis pa_rearranges : rearranges pa.

(** Total correctness of a call on a range of valid indices. *)
Lemma quick_sort_sorts fuel :
  forall low high w,
    0 <= low -> high < Z.of_nat (length (cells w)) ->
    (Z.to_nat (high - low) < fuel)%nat ->
    exists a' calls,
      quick_sort pa fuel low high w
        = Some (Normal tt, World a' (pa_log w ++ calls)) /\
      length a' = length (cells w) /\
      untouched_outside (cells w) a' low high /\
      a' ≡ₚ cells w /\
      sorted_range a' low high /\
      calls_within low high calls.
Proof.
  induction fuel as [|fuel IH]; intros low high w Hlow Hhigh Hfuel; [lia|].
  rewrite quick_sort_unfold.
  destruct (Z.gtb_spec high low) as [Hgt|Hle].
  2:{ exists (cells w), []. rewrite app_nil_r. destruct w; simpl.
      repeat split; auto using sorted_range_short.
      constructor. }
  destruct (pa_returns (cells w) low high Hlow ltac:(lia) Hhigh)
    as (p & a1 & Hpa).
  rewrite Hpa.
  assert (low <= p <= high) as Hp by (eapply pa_index; [|exact Hpa]; lia).
  destruct (pa_frame (cells w) low high _ a1 Hlow ltac:(lia) Hhigh Hpa)
    as [Hlen1 Hout1].
  pose proof (pa_rearranges (cells w) low high _ a1 Hlow ltac:(lia) Hhigh Hpa)
    as Hperm1.
  destruct (pa_invariant (cells w) low high p a1 Hlow ltac:(lia) Hhigh Hpa)
    as (pivot & Hpivot & Hleft & Hright).
  destruct (IH low (p - 1) (World a1 (pa_log w ++ [(low, high)])))
    as (a2 & calls2 & -> & Hlen2 & Hout2 & Hperm2 & Hsorted2 & Hcalls2);
    simpl; [lia..|].
  simpl in Hlen2, Hout2, Hperm2.
  destruct (IH (p + 1) high (World a2 ((pa_log w ++ [(low, high)]) ++ calls2)))
    as (a3 & calls3 & -> & Hlen3 & Hout3 & Hperm3 & Hsorted3 & Hcalls3);
    simpl; [lia..|].
  simpl in Hlen3, Hout3, Hperm3.
  exists a3, ((low, high) :: calls2 ++ calls3).
  split; [|split; [|split; [|split; [|split]]]].
  - do 2 f_equal. rewrite <- !app_assoc. reflexivity.
  - congruence.
  - intros i Hi. rewrite Hout3, Hout2, Hout1 by lia. reflexivity.
  - rewrite Hperm3, Hperm2, Hperm1. reflexivity.
  - assert (forall (k : nat) x,
               low <= Z.of_nat k < p -> a3 !! k = Some x -> x <= pivot) as F1.
    { intros k x Hk Hx. rewrite Hout3 in Hx by lia.
      destruct (perm_within_range a1 a2 low (p - 1) Hlow Hlen2 Hout2 Hperm2
                  k x ltac:(lia) Hx) as (k' & Hk' & Hx').
      apply (Hleft k'); [lia | assumption]. }
    assert (a3 !! Z.to_nat p = Some pivot) as F2.
    { rewrite Hout3, Hout2 by lia. assumption. }
    assert (forall (k : nat) x,
               p < Z.of_nat k <= high -> a3 !! k = Some x -> pivot <= x) as F3.
    { intros k x Hk Hx.
      destruct (perm_within_range a2 a3 (p + 1) high ltac:(lia) Hlen3 Hout3
                  Hperm3 k x ltac:(lia) Hx) as (k' & Hk' & Hx').
      rewrite Hout2 in Hx' by lia.
      apply (Hright k'); [lia | assumption]. }
    intros i j x y Hi Hij Hj Hx Hy.
    destruct (Z.lt_trichotomy (Z.of_nat j) p) as [Hjp|[Hjp|Hjp]].
    + apply (Hsorted2 i j x y); try lia.
      * rewrite <- Hout3 by lia. assumption.
      * rewrite <- Hout3 by lia. assumption.
    + assert (y = pivot) as ->.
      { replace (Z.to_nat p) with j in F2 by lia. congruence. }
      destruct (decide (i = j)) as [->|Hne]; [simplify_eq; lia|].
      apply (F1 i); [lia | assumption].
    + destruct (Z.lt_trichotomy (Z.of_nat i) p) as [Hip|[Hip|Hip]].
      * specialize (F1 i x ltac:(lia) Hx).
        specialize (F3 j y ltac:(lia) Hy). lia.
      * replace (Z.to_nat p) with i in F2 by lia.
        assert (x = pivot) as -> by congruence.
        apply (F3 j); [lia | assumption].
      * apply (Hsorted3 i j x y); try lia; assumption.
  - constructor; [simpl; lia|]. apply Forall_app. split.
    + eapply Forall_impl; [exact Hcalls2|]. simpl. intros c Hc. lia.
    + eapply Forall_impl; [exact Hcalls3|]. simpl. intros c Hc. lia.
Qed.

End DriverCorrect.

(** ** The modelled partitioner meets the contract *)

Section PartitionerFacts.

Implicit Types a : list Z.

Lemma py_index_valid (n : nat) i :
  0 <= i < Z.of_nat n -> py_index n i = Some (Z.to_nat i).
Proof.
  intros Hi. unfold py_index. rewrite bool_decide_eq_true_2 by assumption.
  reflexivity.
Qed.

Lemma getitem_valid a i x :
  0 <= i -> a !! Z.to_nat i = Some x -> getitem a i = Normal x.
Proof.
  intros Hi Hx. unfold getitem.
  rewrite py_index_valid, Hx; [reflexivity|].
  apply lookup_lt_Some in Hx. lia.
Qed.

Lemma setitem_valid a i x :
  0 <= i < Z.of_nat (length a) ->
  setitem a i x = Normal (<[Z.to_nat i := x]> a).
Proof. intros Hi. unfold setitem. rewrite py_index_valid; done. Qed.

Lemma swap_items_valid a i j xi xj :
  0 <= i -> 0 <= j ->
  a !! Z.to_nat i = Some xi -> a !! Z.to_nat j = Some xj ->
  swap_items a i j
    = (Normal tt, <[Z.to_nat j := xi]> (<[Z.to_nat i := xj]> a)).
Proof.
  intros Hi Hj Hxi Hxj. unfold swap_items.
  rewrite (getitem_valid a j xj), (getitem_valid a i xi) by assumption.
  pose proof (lookup_lt_Some _ _ _ Hxi). pose proof (lookup_lt_Some _ _ _ Hxj).
  rewrite !setitem_valid; [reflexivity|..]; rewrite ?length_insert; lia.
Qed.

(** The scan returns an index between the one it starts from and that
    index plus the number of iterations. *)
Lemma scan_index_bounds n :
  forall pivot j i a i' a',
    scan n pivot j i a = (Normal i', a') -> i <= i' <= i + Z.of_nat n.
Proof.
  induction n as [|n IH]; intros pivot j i a i' a' Hscan; simpl in Hscan.
  - simplify_eq. lia.
  - destruct (getitem a j) as [x|e]; [|discriminate].
    destruct (x <? pivot).
    + destruct (swap_items a (i + 1) j) as [[[]|e] a1]; [|discriminate].
      apply IH in Hscan. lia.
    + apply IH in Hscan. lia.
Qed.

(** The loop invariant of the scan, carried to its end: the elements at
    [(i, i']] are below the pivot and those at [(i', high)] are not. *)
Lemma scan_correct pivot high n :
  forall j i a,
    j + Z.of_nat n = high -> 0 <= i + 1 -> i < j ->
    high < Z.of_nat (length a) ->
    a !! Z.to_nat high = Some pivot ->
    (forall (k : nat) x,
        i < Z.of_nat k < j -> a !! k = Some x -> pivot <= x) ->
    exists i' a',
      scan n pivot j i a = (Normal i', a') /\
      i <= i' < high /\
      length a' = length a /\
      a' ≡ₚ a /\
      (forall k : nat, ~ (i < Z.of_nat k < high) -> a' !! k = a !! k) /\
      (forall (k : nat) x,
          i < Z.of_nat k <= i' -> a' !! k = Some x -> x < pivot) /\
      (forall (k : nat) x,
          i' < Z.of_nat k < high -> a' !! k = Some x -> pivot <= x).
Proof.
  induction n as [|n IH]; intros j i a Hj Hi Hij Hhigh Hpivot Hge; simpl.
  { exists i, a. split; [reflexivity|]. split; [lia|].
    split; [reflexivity|]. split; [reflexivity|].
    split; [reflexivity|]. split.
    - intros k x Hk. lia.
    - intros k x Hk. apply Hge. lia. }
  destruct (lookup_lt_is_Some_2 a (Z.to_nat j) ltac:(lia)) as [x Hx].
  rewrite (getitem_valid a j x) by (assumption || lia).
  destruct (Z.ltb_spec x pivot) as [Hlt|Hnlt].
  - destruct (lookup_lt_is_Some_2 a (Z.to_nat (i + 1)) ltac:(lia)) as [y Hy].
    rewrite (swap_items_valid a (i + 1) j y x) by (assumption || lia).
    set (a1 := <[Z.to_nat j := y]> (<[Z.to_nat (i + 1) := x]> a)).
    assert (length a1 = length a) as Hlen1
      by (unfold a1; rewrite !length_insert; reflexivity).
    assert (a1 ≡ₚ a) as Hperm1
      by (apply Permutation_insert_swap; assumption).
    assert (forall k : nat,
               k <> Z.to_nat j -> k <> Z.to_nat (i + 1) -> a1 !! k = a !! k)
      as Hother.
    { intros k Hkj Hki. unfold a1.
      rewrite !list_lookup_insert_ne by congruence. reflexivity. }
    assert (a1 !! Z.to_nat j = Some y) as Hatj.
    { unfold a1. apply list_lookup_insert_eq. rewrite length_insert. lia. }
    assert (a1 !! Z.to_nat (i + 1) = Some x) as Hati.
    { destruct (decide (Z.to_nat (i + 1) = Z.to_nat j)) as [Heq|Hne].
      - rewrite Heq in *. congruence.
      - unfold a1. rewrite list_lookup_insert_ne by congruence.
        apply list_lookup_insert_eq. lia. }
    destruct (IH (j + 1) (i + 1) a1) as
      (i' & a' & -> & Hi' & Hlen' & Hperm' & Hout' & Hlow' & Hhigh');
      try lia.
    + rewrite Hother by lia. assumption.
    + intros k z Hk Hz.
      destruct (decide (k = Z.to_nat j)) as [->|Hkj].
      * rewrite Hatj in Hz. simplify_eq.
        apply (Hge (Z.to_nat (i + 1))); [lia | assumption].
      * rewrite Hother in Hz by lia. apply (Hge k); [lia | assumption].
    + exists i', a'. repeat split; try lia; try congruence.
      * rewrite Hperm'. assumption.
      * intros k Hk. rewrite Hout', Hother by lia. reflexivity.
      * intros k z Hk Hz.
        destruct (decide (k = Z.to_nat (i + 1))) as [->|Hne].
        -- rewrite Hout', Hati in Hz by lia. congruence.
        -- apply (Hlow' k); [lia | assumption].
      * assumption.
  - destruct (IH (j + 1) i a) as
      (i' & a' & -> & Hi' & Hlen' & Hperm' & Hout' & Hlow' & Hhigh');
      try lia; try assumption.
    + intros k z Hk Hz.
      destruct (decide (k = Z.to_nat j)) as [->|Hkj]; [congruence|].
      apply (Hge k); [lia | assumption].
    + exists i', a'. repeat split; try lia; try assumption.
Qed.

(** What a call on a range of valid indices does, in one statement. *)
Lemma partition_array_valid a low high :
  0 <= low -> low <= high -> high < Z.of_nat (length a) ->
  exists p a' pivot,
    partition_array a low high = (Normal p, a') /\
    low <= p <= high /\
    length a' = length a /\
    a' ≡ₚ a /\
    (forall k : nat, ~ (low <= Z.of_nat k <= high) -> a' !! k = a !! k) /\
    a !! Z.to_nat high = Some pivot /\
    a' !! Z.to_nat p = Some pivot /\
    (forall (k : nat) x,
        low <= Z.of_nat k < p -> a' !! k = Some x -> x < pivot) /\
    (forall (k : nat) x,
        p < Z.of_nat k <= high -> a' !! k = Some x -> pivot <= x).
Proof.
  intros Hlow Hle Hhigh. unfold partition_array.
  destruct (lookup_lt_is_Some_2 a (Z.to_nat high) ltac:(lia)) as [pivot Hpivot].
  rewrite (getitem_valid a high pivot) by (assumption || lia).
  destruct (scan_correct pivot high (Z.to_nat (high - low)) low (low - 1) a)
    as (i & a1 & -> & Hi & Hlen1 & Hperm1 & Hout1 & Hlow1 & Hhigh1);
    try lia; try assumption.
  assert (a1 !! Z.to_nat high = Some pivot) as Hpivot1
    by (rewrite Hout1 by lia; assumption).
  destruct (lookup_lt_is_Some_2 a1 (Z.to_nat (i + 1)) ltac:(lia)) as [y Hy].
  rewrite (swap_items_valid a1 (i + 1) high y pivot) by (assumption || lia).
  set (a2 := <[Z.to_nat high := y]> (<[Z.to_nat (i + 1) := pivot]> a1)).
  assert (forall k : nat,
             k <> Z.to_nat high -> k <> Z.to_nat (i + 1) -> a2 !! k = a1 !! k)
    as Hother.
  { intros k Hkj Hki. unfold a2.
    rewrite !list_lookup_insert_ne by congruence. reflexivity. }
  assert (a2 !! Z.to_nat high = Some y) as Hathigh.
  { unfold a2. apply list_lookup_insert_eq. rewrite length_insert. lia. }
  assert (a2 !! Z.to_nat (i + 1) = Some pivot) as Hatp.
  { destruct (decide (Z.to_nat (i + 1) = Z.to_nat high)) as [Heq|Hne].
    - rewrite Heq in *. congruence.
    - unfold a2. rewrite list_lookup_insert_ne by congruence.
      apply list_lookup_insert_eq. lia. }
  exists (i + 1), a2, pivot. repeat split; try lia; try assumption.
  - unfold a2. rewrite !length_insert. assumption.
  - rewrite <- Hperm1. apply Permutation_insert_swap; assumption.
  - intros k Hk. rewrite Hother, Hout1 by lia. reflexivity.
  - intros k x Hk Hx. rewrite Hother in Hx by lia.
    apply (Hlow1 k); [lia | assumption].
  - intros k x Hk Hx.
    destruct (decide (k = Z.to_nat high)) as [->|Hne].
    + rewrite Hathigh in Hx. simplify_eq.
      apply (Hhigh1 (Z.to_nat (i + 1))); [lia | assumption].
    + rewrite Hother in Hx by lia. apply (Hhigh1 k); [lia | assumption].
Qed.

Lemma partition_array_returns : returns_on_valid_ranges partition_array.
Proof.
  intros a low high Hlow Hle Hhigh.
  destruct (partition_array_valid a low high Hlow Hle Hhigh)
    as (p & a' & _ & Hrun & _). eauto.
Qed.

Lemma partition_array_index : pivot_index_within_range partition_array.
Proof.
  intros a low high p a' Hle Hrun. unfold partition_array in Hrun.
  destruct (getitem a high) as [pivot|e]; [|discriminate].
  destruct (scan _ pivot low (low - 1) a) as [[i|e] a1] eqn:Hscan;
    [|discriminate].
  apply scan_index_bounds in Hscan.
  destruct (swap_items a1 (i + 1) high) as [[[]|e] a2]; [|discriminate].
  simplify_eq. lia.
Qed.

Lemma partition_array_frame : mutates_only_within_range partition_array.
Proof.
  intros a low high r a' Hlow Hle Hhigh Hrun.
  destruct (partition_array_valid a low high Hlow Hle Hhigh)
    as (p & a2 & pivot & Hrun' & _ & Hlen & _ & Hout & _).
  rewrite Hrun' in Hrun. simplify_eq. split; assumption.
Qed.

Lemma partition_array_rearranges : rearranges partition_array.
Proof.
  intros a low high r a' Hlow Hle Hhigh Hrun.
  destruct (partition_array_valid a low high Hlow Hle Hhigh)
    as (p & a2 & pivot & Hrun' & _ & _ & Hperm & _).
  rewrite Hrun' in Hrun. simplify_eq. assumption.
Qed.

Lemma partition_array_invariant : partition_invariant partition_array.
Proof.
  intros a low high p a' Hlow Hle Hhigh Hrun.
  destruct (partition_array_valid a low high Hlow Hle Hhigh)
    as (p' & a2 & pivot & Hrun' & _ & _ & _ & _ & _ & Hp & Hleft & Hright).
  rewrite Hrun' in Hrun. simplify_eq.
  exists pivot. split; [assumption|]. split; [|assumption].
  intros i x Hi Hx. specialize (Hleft i x Hi Hx). lia.
Qed.

Lemma partition_array_contract : partitioner_contract partition_array.
Proof.
  exact (conj partition_array_returns
           (conj partition_array_index
              (conj partition_array_invariant
                 (conj partition_array_frame partition_array_rearranges)))).
Qed.

End PartitionerFacts.

(** ** The partitioners that meet only part of the contract *)

Section PartialPartitioners.

Lemma overwriting_pa_returns : returns_on_valid_ranges overwriting_pa.
Proof. intros a low high _ _ _. unfold overwriting_pa. eauto. Qed.

Lemma overwriting_pa_index : pivot_index_within_range overwriting_pa.
Proof.
  intros a low high p a' Hle Hrun. unfold overwriting_pa in Hrun.
  injection Hrun as Hp Ha. subst p a'. lia.
Qed.

Lemma overwriting_pa_invariant : partition_invariant overwriting_pa.
Proof.
  intros a low high p a' Hlow Hle Hhigh Hrun. unfold overwriting_pa in Hrun.
  injection Hrun as Hp Ha. subst p a'. exists (- high). split; [|split].
  - destruct (lookup_lt_is_Some_2 a (Z.to_nat high) ltac:(lia)) as [y Hy].
    rewrite list_lookup_imap, Hy. simpl.
    rewrite bool_decide_eq_true_2 by lia. reflexivity.
  - intros i x Hi Hx. apply list_lookup_imap_Some in Hx as (y & _ & ->).
    rewrite bool_decide_eq_true_2 by lia. lia.
  - intros i x Hi Hx. lia.
Qed.

Lemma idle_pa_frame : mutates_only_within_range idle_pa.
Proof.
  intros a low high r a' _ _ _ Hrun. unfold idle_pa in Hrun. simplify_eq.
  split; [reflexivity | intros i _; reflexivity].
Qed.

Lemma idle_pa_rearranges : rearranges idle_pa.
Proof.
  intros a low high r a' _ _ _ Hrun. unfold idle_pa in Hrun. simplify_eq.
  reflexivity.
Qed.

Lemma stray_index_pa_frame : mutates_only_within_range stray_index_pa.
Proof.
  intros a low high r a' Hlow Hle Hhigh Hrun. unfold stray_index_pa in Hrun.
  destruct (low =? 2); simplify_eq.
  - split; [reflexivity | intros i _; reflexivity].
  - split; [apply length_insert|].
    intros i Hi. apply list_lookup_insert_ne. lia.
Qed.

End PartialPartitioners.

(** * The claims *)

(** C1, as the claim states it, fails: [overwriting_pa] returns on every
    range an index within it and leaves the partition invariant in place,
    yet [quick_sort] over the valid range [[0, 2]] of [[0, 0, 0]] returns
    with [[-1, -1, -2]], whose sub-range [[0, 2]] is not in non-decreasing
    order. *)
Lemma invariant_and_index_bound_not_enough :
  returns_on_valid_ranges overwriting_pa /\
  pivot_index_within_range overwriting_pa /\
  partition_invariant overwriting_pa /\
  quick_sort overwriting_pa 3 0 2 (World [0; 0; 0] [])
    = Some (Normal tt, World [-1; -1; -2] [(0, 2); (0, 1)]) /\
  ~ sorted_range [-1; -1; -2] 0 2.
Proof.
  split; [exact overwriting_pa_returns|].
  split; [exact overwriting_pa_index|].
  split; [exact overwriting_pa_invariant|].
  split; [reflexivity|].
  intros Hsorted.
  specialize (Hsorted 1%nat 2%nat (-1) (-2)
                ltac:(lia) ltac:(lia) ltac:(lia) eq_refl eq_refl).
  lia.
Qed.

(** C1, amended.  For every sequence and every valid range [[low, high]]
    into it, with a partitioner that meets the whole contract (on valid
    ranges it returns an index within the range, establishes the
    partition invariant, and does so by rearranging in place the
    elements of the range it is given and nothing else),
    [quick_sort(array, low, high)] returns, and then the sub-range
    [[low, high]] is sorted in non-decreasing order, the sequence has the
    length it had and is a permutation of what it was, and every element
    outside the range is where it was. *)
Theorem quick_sort_sorts_range (pa : partitioner) :
  partitioner_contract pa ->
  forall (array : list Z) (log : list (Z * Z)) (low high : Z) (fuel : nat),
    0 <= low -> high < Z.of_nat (length array) ->
    (Z.to_nat (high - low) < fuel)%nat ->
    exists array' log',
      quick_sort pa fuel low high (World array log)
        = Some (Normal tt, World array' log') /\
      length array' = length array /\
      array' ≡ₚ array /\
      untouched_outside array array' low high /\
      sorted_range array' low high.
Proof.
  intros (Hret & Hidx & Hinv & Hmut & Hperm) array log low high fuel Hlow Hhigh Hfuel.
  destruct (quick_sort_sorts pa Hidx Hmut Hret Hinv Hperm fuel low high
              (World array log) Hlow Hhigh Hfuel)
    as (a' & calls & Hrun & Hlen & Hout & Hp & Hsorted & _).
  exists a', (log ++ calls). auto.
Qed.

Lemma quick_sort_sorts_range_witness :
  exists array' log',
    quick_sort partition_array 10 0 9 (World l1 [])
      = Some (Normal tt, World array' log') /\
    length array' = length l1 /\
    array' ≡ₚ l1 /\
    untouched_outside l1 array' 0 9 /\
    sorted_range array' 0 9.
Proof.
  apply (quick_sort_sorts_range partition_array
           partition_array_contract l1 [] 0 9 10);
    [lia | vm_compute; reflexivity | simpl; lia].
Defined.

(** C2, as the claim states it, fails: [idle_pa] only rearranges within
    the range it is given (it moves nothing), yet after [quick_sort] over
    the full range of [[2, 1]] the sequence is still [[2, 1]], which is
    not non-decreasing. *)
Lemma rearranging_within_range_not_enough :
  mutates_only_within_range idle_pa /\
  rearranges idle_pa /\
  quick_sort idle_pa 3 0 (Z.of_nat (length [2; 1]) - 1) (World [2; 1] [])
    = Some (Normal tt, World [2; 1] [(0, 1)]) /\
  ~ non_decreasing [2; 1].
Proof.
  split; [exact idle_pa_frame|]. split; [exact idle_pa_rearranges|].
  split; [reflexivity|].
  intros Hnd. specialize (Hnd 0%nat 2 1 eq_refl eq_refl). lia.
Qed.

(** C2, amended.  For every sequence S, with a partitioner that meets the
    whole contract (besides only rearranging elements within the range it
    is given, on valid ranges it returns an index within the range and
    establishes the partition invariant), the sequence held after
    [quick_sort] over the full range is a permutation of S and is
    non-decreasing: [result[i] <= result[i+1]] for all adjacent
    indices. *)
Theorem quick_sort_sorted_permutation (pa : partitioner) :
  partitioner_contract pa ->
  forall (S : list Z) (log : list (Z * Z)) (fuel : nat),
    (length S < fuel)%nat ->
    exists result log',
      quick_sort pa fuel 0 (Z.of_nat (length S) - 1) (World S log)
        = Some (Normal tt, World result log') /\
      result ≡ₚ S /\
      non_decreasing result.
Proof.
  intros (Hret & Hidx & Hinv & Hmut & Hperm) S log fuel Hfuel.
  destruct (quick_sort_sorts pa Hidx Hmut Hret Hinv Hperm fuel
              0 (Z.of_nat (length S) - 1) (World S log))
    as (a' & calls & Hrun & Hlen & _ & Hp & Hsorted & _); simpl; try lia.
  simpl in Hlen, Hp. exists a', (log ++ calls).
  split; [assumption|]. split; [assumption|].
  apply sorted_range_non_decreasing. rewrite Hlen. assumption.
Qed.

Lemma quick_sort_sorted_permutation_witness :
  exists result log',
    quick_sort partition_array 11 0 (Z.of_nat (length l1) - 1) (World l1 [])
      = Some (Normal tt, World result log') /\
    result ≡ₚ l1 /\
    non_decreasing result.
Proof.
  apply (quick_sort_sorted_permutation partition_array
           partition_array_contract l1 [] 11).
  simpl. lia.
Defined.

(** C3.  For every sequence and every range of valid indices with
    [low <= high], the partitioner returns an index [p] in the range, the
    element at [p] is the pivot value used for the comparisons (the last
    element of the range as it was given), every element at
    [low <= i < p] is [<=] it and every element at [p < i <= high] is
    [>=] it; no shape of input is excluded. *)
Theorem partition_array_partitions (a : list Z) (low high : Z) :
  0 <= low -> low <= high -> high < Z.of_nat (length a) ->
  exists p a' pivot,
    partition_array a low high = (Normal p, a') /\
    low <= p <= high /\
    a !! Z.to_nat high = Some pivot /\
    a' !! Z.to_nat p = Some pivot /\
    (forall (i : nat) x,
        low <= Z.of_nat i < p -> a' !! i = Some x -> x <= pivot) /\
    (forall (i : nat) x,
        p < Z.of_nat i <= high -> a' !! i = Some x -> pivot <= x).
Proof.
  intros Hlow Hle Hhigh.
  destruct (partition_array_valid a low high Hlow Hle Hhigh)
    as (p & a' & pivot & Hrun & Hp & _ & _ & _ & Hpiv & Hat & Hleft & Hright).
  exists p, a', pivot. repeat split; try assumption; try lia.
  intros i x Hi Hx. specialize (Hleft i x Hi Hx). lia.
Qed.

Lemma partition_array_partitions_witness :
  exists p a' pivot,
    partition_array [2; 2; 2; 2] 0 3 = (Normal p, a') /\
    0 <= p <= 3 /\
    [2; 2; 2; 2] !! Z.to_nat 3 = Some pivot /\
    a' !! Z.to_nat p = Some pivot /\
    (forall (i : nat) x,
        0 <= Z.of_nat i < p -> a' !! i = Some x -> x <= pivot) /\
    (forall (i : nat) x,
        p < Z.of_nat i <= 3 -> a' !! i = Some x -> pivot <= x).
Proof.
  apply (partition_array_partitions [2; 2; 2; 2] 0 3);
    [lia | lia | vm_compute; reflexivity].
Defined.

(** C4.  For every sequence and every range [[low, high]], with a
    partitioner that returns a pivot index within the range it is given,
    [quick_sort(array, low, high)] terminates once the fuel exceeds
    [high - low]: the recursive calls are made on [[low, p - 1]] and
    [[p + 1, high]], neither of which contains [p], and both have strictly
    fewer indices than [[low, high]]. *)
Theorem quick_sort_terminates (pa : partitioner) :
  pivot_index_within_range pa ->
  forall (low high : Z) (w : world) (fuel : nat),
    (Z.to_nat (high - low) < fuel)%nat ->
    (exists r w', quick_sort pa fuel low high w = Some (r, w')) /\
    (forall p c,
        high > low -> pa (cells w) low high = (Normal p, c) ->
        ~ (low <= p <= p - 1) /\ ~ (p + 1 <= p <= high) /\
        (range_size low (p - 1) < range_size low high)%nat /\
        (range_size (p + 1) high < range_size low high)%nat).
Proof.
  intros Hidx low high w fuel Hfuel. split.
  - destruct (quick_sort_returns_some pa fuel Hidx low high w Hfuel)
      as [[r w'] Hrun]. eauto.
  - intros p c Hgt Hpa.
    assert (low <= p <= high) as Hp by (eapply Hidx; [|exact Hpa]; lia).
    split; [lia|]. split; [lia|]. apply subranges_shrink; assumption.
Qed.

Lemma quick_sort_terminates_witness :
  (exists r w', quick_sort partition_array 4 0 3 (World [2; 2; 2; 2] [])
                = Some (r, w')) /\
  (forall p c,
      3 > 0 -> partition_array (cells (World [2; 2; 2; 2] [])) 0 3 = (Normal p, c) ->
      ~ (0 <= p <= p - 1) /\ ~ (p + 1 <= p <= 3) /\
      (range_size 0 (p - 1) < range_size 0 3)%nat /\
      (range_size (p + 1) 3 < range_size 0 3)%nat).
Proof.
  apply (quick_sort_terminates partition_array partition_array_index
           0 3 (World [2; 2; 2; 2] []) 4).
  simpl. lia.
Defined.

(** C5.  For every sequence and every range with [low >= high],
    [quick_sort(array, low, high)] returns at once: the partitioner is not
    called (the record of its calls is unchanged, whatever the partitioner
    is) and the sequence is unchanged.  In particular the full range of an
    empty sequence yields the empty sequence, and the full range of a
    single-element sequence leaves it as it was. *)
Theorem quick_sort_guard (pa : partitioner) (fuel : nat)
    (low high : Z) (w : world) :
  low >= high ->
  quick_sort pa (S fuel) low high w = Some (Normal tt, w) /\
  (forall log,
      quick_sort pa (S fuel) 0 (Z.of_nat (length (@nil Z)) - 1) (World [] log)
        = Some (Normal tt, World [] log)) /\
  (forall x log,
      quick_sort pa (S fuel) 0 (Z.of_nat (length [x]) - 1) (World [x] log)
        = Some (Normal tt, World [x] log)).
Proof.
  intros Hge. split; [|split]; intros; apply quick_sort_base_case; simpl; lia.
Qed.

Lemma quick_sort_guard_witness :
  quick_sort partition_array 1 2 2 (World [5; 3; 4] [])
    = Some (Normal tt, World [5; 3; 4] []) /\
  (forall log,
      quick_sort partition_array 1 0 (Z.of_nat (length (@nil Z)) - 1)
        (World [] log) = Some (Normal tt, World [] log)) /\
  (forall x log,
      quick_sort partition_array 1 0 (Z.of_nat (length [x]) - 1)
        (World [x] log) = Some (Normal tt, World [x] log)).
Proof.
  apply (quick_sort_guard partition_array 0 2 2 (World [5; 3; 4] [])). lia.
Defined.

(** C6, as the claim states it, fails: on the list [[3, 1, 2]] the pair
    [(5, 2)] has [low] outside [[0, 2]], yet the call returns normally
    and reports no error. *)
Lemma quick_sort_out_of_range_returns :
  ~ (0 <= 5 <= Z.of_nat (length [3; 1; 2]) - 1) /\
  quick_sort partition_array 1 5 2 (World [3; 1; 2] [])
    = Some (Normal tt, World [3; 1; 2] []).
Proof. split; [simpl; lia | reflexivity]. Qed.

(** C6, amended.  [quick_sort] makes no check of the range against the
    sequence.  For every sequence and every pair with [low >= high],
    whether or not [low] and [high] lie within [[0, length-1]], it raises
    no error: it returns normally at once, with the sequence and the
    record of partitioner calls unchanged.  With [high > low] the first
    thing the call does is to call the partitioner on the pair as it was
    given, whatever the length of the sequence. *)
Theorem quick_sort_validates_nothing (pa : partitioner) (fuel : nat)
    (low high : Z) (w : world) :
  (low >= high ->
   quick_sort pa (S fuel) low high w = Some (Normal tt, w)) /\
  (high > low ->
   quick_sort pa (S fuel) low high w
     = (pivot_index <- call_pa pa low high ;;
        quick_sort pa fuel low (pivot_index - 1) ;;;
        quick_sort pa fuel (pivot_index + 1) high) w).
Proof.
  split.
  - intros Hge. apply quick_sort_base_case. lia.
  - intros Hgt. simpl.
    destruct (Z.gtb_spec high low); [reflexivity | lia].
Qed.

Lemma quick_sort_validates_nothing_witness :
  quick_sort partition_array 1 5 2 (World [3; 1; 2] [])
    = Some (Normal tt, World [3; 1; 2] []) /\
  quick_sort partition_array 1 0 5 (World [3; 1; 2] [])
    = (pivot_index <- call_pa partition_array 0 5 ;;
       quick_sort partition_array 0 0 (pivot_index - 1) ;;;
       quick_sort partition_array 0 (pivot_index + 1) 5) (World [3; 1; 2] []).
Proof.
  split.
  - apply (proj1 (quick_sort_validates_nothing partition_array 0 5 2
                    (World [3; 1; 2] []))).
    lia.
  - apply (proj2 (quick_sort_validates_nothing partition_array 0 0 5
                    (World [3; 1; 2] []))).
    lia.
Defined.

(** C7, as the claim states it, fails: [stray_index_pa] mutates only
    within the range it is given, yet [quick_sort] over the valid range
    [[2, 3]] of [[5, 6, 7, 8]] changes the element at index 1, because
    the index 0 it gets back for [[2, 3]] makes it recurse on
    [[1, 3]]. *)
Lemma mutating_within_range_not_enough :
  mutates_only_within_range stray_index_pa /\
  quick_sort stray_index_pa 4 2 3 (World [5; 6; 7; 8] [])
    = Some (Normal tt, World [5; 0; 7; 8] [(2, 3); (1, 3); (1, 2)]) /\
  ~ untouched_outside [5; 6; 7; 8] [5; 0; 7; 8] 2 3.
Proof.
  split; [exact stray_index_pa_frame|]. split; [reflexivity|].
  intros Hout. specialize (Hout 1%nat ltac:(lia)). discriminate.
Qed.

(** C7, amended.  For every sequence and every valid range [[low, high]],
    with a partitioner that mutates only within the range it is given
    and also returns an index within that range,
    [quick_sort(array, low, high)] completes, keeps the length of the
    sequence, and leaves every element at an index outside [[low, high]]
    equal to its value before the call. *)
Theorem quick_sort_untouched_outside (pa : partitioner) :
  pivot_index_within_range pa ->
  mutates_only_within_range pa ->
  forall (array : list Z) (log : list (Z * Z)) (low high : Z) (fuel : nat),
    0 <= low -> high < Z.of_nat (length array) ->
    (Z.to_nat (high - low) < fuel)%nat ->
    exists r array' log',
      quick_sort pa fuel low high (World array log)
        = Some (r, World array' log') /\
      length array' = length array /\
      untouched_outside array array' low high.
Proof.
  intros Hidx Hmut array log low high fuel Hlow Hhigh Hfuel.
  destruct (quick_sort_returns_some pa fuel Hidx low high (World array log) Hfuel)
    as [[r [array' log']] Hrun].
  exists r, array', log'. split; [assumption|].
  apply (quick_sort_frame pa Hidx Hmut fuel low high (World array log) r
           (World array' log')); assumption.
Qed.

Lemma quick_sort_untouched_outside_witness :
  exists r array' log',
    quick_sort partition_array 4 2 5 (World l1 [])
      = Some (r, World array' log') /\
    length array' = length l1 /\
    untouched_outside l1 array' 2 5.
Proof.
  apply (quick_sort_untouched_outside partition_array
           partition_array_index partition_array_frame l1 [] 2 5 4);
    [lia | vm_compute; reflexivity | simpl; lia].
Defined.

(** C8.  For all finite sequences S, with a partitioner that meets its
    contract, sorting is idempotent: [quick_sort] over the full range of
    the sequence it has already sorted leaves that sequence as it is. *)
Theorem quick_sort_idempotent (pa : partitioner) :
  partitioner_contract pa ->
  forall (S : list Z) (log : list (Z * Z)) (fuel : nat),
    (length S < fuel)%nat ->
    exists once log1 log2,
      quick_sort pa fuel 0 (Z.of_nat (length S) - 1) (World S log)
        = Some (Normal tt, World once log1) /\
      quick_sort pa fuel 0 (Z.of_nat (length once) - 1) (World once log1)
        = Some (Normal tt, World once log2).
Proof.
  intros (Hret & Hidx & Hinv & Hmut & Hperm) S log fuel Hfuel.
  destruct (quick_sort_sorts pa Hidx Hmut Hret Hinv Hperm fuel
              0 (Z.of_nat (length S) - 1) (World S log))
    as (once & calls1 & Hrun1 & Hlen1 & _ & Hp1 & Hsorted1 & _);
    simpl; try lia.
  simpl in Hlen1, Hp1.
  destruct (quick_sort_sorts pa Hidx Hmut Hret Hinv Hperm fuel
              0 (Z.of_nat (length once) - 1) (World once (log ++ calls1)))
    as (twice & calls2 & Hrun2 & Hlen2 & _ & Hp2 & Hsorted2 & _);
    simpl; try lia.
  simpl in Hlen2, Hp2.
  assert (twice = once) as ->.
  { apply non_decreasing_unique; [| |assumption];
      apply sorted_range_non_decreasing.
    - rewrite Hlen2. assumption.
    - rewrite Hlen1. assumption. }
  eauto.
Qed.

Lemma quick_sort_idempotent_witness :
  exists once log1 log2,
    quick_sort partition_array 11 0 (Z.of_nat (length l1) - 1) (World l1 [])
      = Some (Normal tt, World once log1) /\
    quick_sort partition_array 11 0 (Z.of_nat (length once) - 1) (World once log1)
      = Some (Normal tt, World once log2).
Proof.
  apply (quick_sort_idempotent partition_array
           partition_array_contract l1 [] 11).
  simpl. lia.
Defined.

(** C9.  With a partitioner that meets its contract, sorting
    [[34,223,22,31,1,100,50,40,22,72]] over its full range (low 0,
    high 9) produces exactly [[1,22,22,31,34,40,50,72,100,223]], and
    sorting [[2,2,2,2]] over its full range produces [[2,2,2,2]]; both
    calls return within a recursion depth of the length of the list, no
    call raises, and every range handed to the partitioner lies inside
    the list. *)
Theorem quick_sort_scenarios (pa : partitioner) :
  partitioner_contract pa ->
  (exists calls,
      quick_sort pa 10 0 9 (World l1 [])
        = Some (Normal tt, World [1; 22; 22; 31; 34; 40; 50; 72; 100; 223] calls) /\
      calls_within 0 9 calls) /\
  (exists calls,
      quick_sort pa 4 0 3 (World [2; 2; 2; 2] [])
        = Some (Normal tt, World [2; 2; 2; 2] calls) /\
      calls_within 0 3 calls).
Proof.
  intros (Hret & Hidx & Hinv & Hmut & Hperm). split.
  - destruct (quick_sort_sorts pa Hidx Hmut Hret Hinv Hperm 10 0 9 (World l1 []))
      as (a' & calls & Hrun & Hlen & _ & Hp & Hsorted & Hcalls);
      [lia | vm_compute; reflexivity | simpl; lia |].
    simpl in Hlen, Hp, Hrun.
    assert (a' = [1; 22; 22; 31; 34; 40; 50; 72; 100; 223]) as ->; [|eauto].
    apply (Sorted_unique Z.le).
    + apply non_decreasing_Sorted, sorted_range_non_decreasing.
      rewrite Hlen. exact Hsorted.
    + repeat constructor; lia.
    + rewrite Hp. apply (bool_decide_unpack _). vm_compute. exact I.
  - destruct (quick_sort_sorts pa Hidx Hmut Hret Hinv Hperm 4 0 3
                (World [2; 2; 2; 2] []))
      as (a' & calls & Hrun & Hlen & _ & Hp & Hsorted & Hcalls);
      [lia | vm_compute; reflexivity | simpl; lia |].
    simpl in Hlen, Hp, Hrun.
    assert (a' = [2; 2; 2; 2]) as ->; [|eauto].
    apply (Sorted_unique Z.le).
    + apply non_decreasing_Sorted, sorted_range_non_decreasing.
      rewrite Hlen. exact Hsorted.
    + repeat constructor; lia.
    + exact Hp.
Qed.

Lemma quick_sort_scenarios_witness :
  (exists calls,
      quick_sort partition_array 10 0 9 (World l1 [])
        = Some (Normal tt, World [1; 22; 22; 31; 34; 40; 50; 72; 100; 223] calls) /\
      calls_within 0 9 calls) /\
  (exists calls,
      quick_sort partition_array 4 0 3 (World [2; 2; 2; 2] [])
        = Some (Normal tt, World [2; 2; 2; 2] calls) /\
      calls_within 0 3 calls).
Proof.
  exact (quick_sort_scenarios partition_array
           partition_array_contract).
Defined.

(** C10.  What the module does when it is run, whatever the partitioner:
    the bound of the call is computed as [len(11) - 1], and [len] of the
    integer [11] raises [TypeError] before [quick_sort] is entered; the
    script stops there, having printed only the line before sorting, with
    [l1] as it was and the partitioner never called.  The list is never
    printed in sorted order. *)
Theorem module_body_raises_type_error (pa : partitioner) (fuel : nat) :
  module_body pa fuel
    = Some (Raised TypeError, World l1 [],
            [("before sorting: "%string, VList l1)]).
Proof. reflexivity. Qed.

(** * Further properties of the driver *)

(** ** Sub-ranges as lists *)

Section SliceFacts.

Implicit Types a : list Z.

(** Inside the range, the slice and the list hold the same elements. *)
Lemma slice_lookup a low high (i : nat) :
  0 <= low -> low <= Z.of_nat i <= high ->
  slice a low high !! (i - Z.to_nat low)%nat = a !! i.
Proof.
  intros Hlow Hi. unfold slice, range_size.
  rewrite lookup_take_lt by lia. rewrite lookup_drop. f_equal. lia.
Qed.

Lemma slice_lookup_Some a low high (k : nat) x :
  0 <= low -> slice a low high !! k = Some x ->
  low <= Z.of_nat (Z.to_nat low + k) <= high /\
  a !! (Z.to_nat low + k)%nat = Some x.
Proof.
  intros Hlow Hk. unfold slice, range_size in Hk.
  apply lookup_take_Some in Hk as [Hk Hlt]. rewrite lookup_drop in Hk.
  split; [lia | assumption].
Qed.

(** Two lists that agree on a range have the same slice of it. *)
Lemma slice_ext a1 a2 low high :
  0 <= low ->
  (forall i : nat, low <= Z.of_nat i <= high -> a1 !! i = a2 !! i) ->
  slice a1 low high = slice a2 low high.
Proof.
  intros Hlow Hagree. apply list_eq. intros k. unfold slice, range_size.
  rewrite !lookup_take, !lookup_drop.
  case_decide; [|reflexivity]. apply Hagree. lia.
Qed.

(** A permutation that fixes everything outside a range permutes the
    slice of that range. *)
Lemma slice_perm a a' low high :
  0 <= low ->
  untouched_outside a a' low high ->
  a' ≡ₚ a ->
  slice a' low high ≡ₚ slice a low high.
Proof.
  intros Hlow Hout Hperm. unfold slice.
  set (l := Z.to_nat low). set (n := range_size low high).
  assert (take l a' = take l a) as Hpre.
  { apply list_eq. intros i. rewrite !lookup_take.
    case_decide; [|reflexivity]. apply Hout. lia. }
  assert (drop (l + n) a' = drop (l + n) a) as Hpost.
  { apply list_eq. intros i. rewrite !lookup_drop. apply Hout.
    unfold n, range_size. lia. }
  rewrite (split_at_range a l n), (split_at_range a' l n) in Hperm.
  rewrite Hpre, Hpost in Hperm.
  apply (inj (app _)) in Hperm. apply (inj (fun m => m ++ _)) in Hperm.
  exact Hperm.
Qed.

(** A range in non-decreasing order has a sorted slice. *)
Lemma sorted_range_slice a low high :
  0 <= low -> sorted_range a low high -> Sorted Z.le (slice a low high).
Proof.
  intros Hlow Hsorted. apply non_decreasing_Sorted. intros k x y Hx Hy.
  apply slice_lookup_Some in Hx as [Hkx Hx]; [|assumption].
  apply slice_lookup_Some in Hy as [Hky Hy]; [|assumption].
  apply (Hsorted (Z.to_nat low + k)%nat (Z.to_nat low + S k)%nat x y);
    try lia; assumption.
Qed.

(** The same elements in the same range, sorted: the same slice. *)
Lemma sorted_slices_equal a1 a2 low high :
  0 <= low ->
  slice a1 low high ≡ₚ slice a2 low high ->
  sorted_range a1 low high -> sorted_range a2 low high ->
  forall i : nat, low <= Z.of_nat i <= high -> a1 !! i = a2 !! i.
Proof.
  intros Hlow Hperm Hs1 Hs2 i Hi.
  rewrite <- (slice_lookup a1 low high i), <- (slice_lookup a2 low high i)
    by assumption.
  f_equal. apply (Sorted_unique Z.le); auto using sorted_range_slice.
Qed.

(** Two rearrangements of one range of a list that are both sorted on the
    range are the same list. *)
Lemma range_sorted_unique a1 a2 low high :
  0 <= low ->
  untouched_outside a2 a1 low high ->
  a1 ≡ₚ a2 ->
  sorted_range a1 low high -> sorted_range a2 low high ->
  a1 = a2.
Proof.
  intros Hlow Hout Hperm Hs1 Hs2. apply list_eq. intros i.
  destruct (decide (low <= Z.of_nat i <= high)) as [Hi|Hi].
  - apply (sorted_slices_equal a1 a2 low high); auto using slice_perm.
  - apply Hout. assumption.
Qed.

End SliceFacts.

(** ** Calls of the partitioner and depth of the recursion *)

Section DriverCalls.

Variable pa : partitioner.

(** With a pivot index inside the range, the ranges handed to the
    partitioner lie inside the range of the call, and there are at most
    [high - low] of them, however the call completes. *)
Lemma quick_sort_calls fuel :
  pivot_index_within_range pa ->
  forall low high w r w',
    quick_sort pa fuel low high w = Some (r, w') ->
    exists calls,
      pa_log w' = pa_log w ++ calls /\
      calls_within low high calls /\
      (length calls <= Z.to_nat (high - low))%nat.
Proof.
  intros Hidx. induction fuel as [|fuel IH]; intros low high w r w' Hrun;
    [discriminate|].
  rewrite quick_sort_unfold in Hrun.
  destruct (Z.gtb_spec high low) as [Hgt|Hle].
  2:{ simplify_eq. exists []. rewrite app_nil_r.
      split; [reflexivity|]. split; [constructor | simpl; lia]. }
  destruct (pa (cells w) low high) as [[p|e] c] eqn:Hpa.
  2:{ simplify_eq. exists [(low, high)]. simpl.
      split; [reflexivity|]. split; [|lia].
      constructor; [simpl; lia | constructor]. }
  assert (low <= p <= high) as Hp by (eapply Hidx; [|exact Hpa]; lia).
  destruct (quick_sort pa fuel low (p - 1) _) as [[r1 w1]|] eqn:Hleft;
    [|discriminate].
  apply IH in Hleft as (c2 & Hlog2 & Hin2 & Hlen2). simpl in Hlog2.
  assert (calls_within low high ((low, high) :: c2)) as Hin12.
  { constructor; [simpl; lia|].
    eapply Forall_impl; [exact Hin2|]. simpl. intros x Hx. lia. }
  destruct r1 as [[]|e1].
  - apply IH in Hrun as (c3 & Hlog3 & Hin3 & Hlen3).
    exists ((low, high) :: c2 ++ c3). split; [|split].
    + rewrite Hlog3, Hlog2, <- !app_assoc. reflexivity.
    + rewrite app_comm_cons. apply Forall_app. split; [exact Hin12|].
      eapply Forall_impl; [exact Hin3|]. simpl. intros x Hx. lia.
    + simpl. rewrite length_app. lia.
  - simplify_eq. exists ((low, high) :: c2). split; [|split].
    + rewrite Hlog2, <- !app_assoc. reflexivity.
    + exact Hin12.
    + simpl. lia.
Qed.

End DriverCalls.

(** X1.  Whatever the partitioner does and however the call completes,
    [quick_sort] never hands it a range with fewer than two indices: every
    range added to the record of partitioner calls has [low < high]. *)
Theorem quick_sort_partitions_only_proper_ranges (pa : partitioner) (fuel : nat) :
  forall low high w r w',
    quick_sort pa fuel low high w = Some (r, w') ->
    exists calls,
      pa_log w' = pa_log w ++ calls /\
      Forall (fun c => c.1 < c.2) calls.
Proof.
  induction fuel as [|fuel IH]; intros low high w r w' Hrun; [discriminate|].
  rewrite quick_sort_unfold in Hrun.
  destruct (Z.gtb_spec high low) as [Hgt|Hle].
  2:{ simplify_eq. exists []. rewrite app_nil_r. split; [reflexivity|constructor]. }
  destruct (pa (cells w) low high) as [[p|e] c] eqn:Hpa.
  2:{ simplify_eq. exists [(low, high)]. simpl. split; [reflexivity|].
      constructor; [simpl; lia | constructor]. }
  destruct (quick_sort pa fuel low (p - 1) _) as [[r1 w1]|] eqn:Hleft;
    [|discriminate].
  apply IH in Hleft as (c2 & Hlog2 & Hin2). simpl in Hlog2.
  destruct r1 as [[]|e1].
  - apply IH in Hrun as (c3 & Hlog3 & Hin3).
    exists ((low, high) :: c2 ++ c3). split.
    + rewrite Hlog3, Hlog2, <- !app_assoc. reflexivity.
    + constructor; [simpl; lia|]. apply Forall_app. split; assumption.
  - simplify_eq. exists ((low, high) :: c2). split.
    + rewrite Hlog2, <- !app_assoc. reflexivity.
    + constructor; [simpl; lia | assumption].
Qed.

Lemma quick_sort_partitions_only_proper_ranges_witness :
  exists calls,
    pa_log (World [1; 2; 3; 4] [(0, 3); (1, 3); (1, 2)])
      = pa_log (World [4; 3; 2; 1] []) ++ calls /\
    Forall (fun c => c.1 < c.2) calls.
Proof.
  apply (quick_sort_partitions_only_proper_ranges partition_array 4 0 3
           (World [4; 3; 2; 1] []) (Normal tt)
           (World [1; 2; 3; 4] [(0, 3); (1, 3); (1, 2)])).
  reflexivity.
Defined.

(** X2.  With a partitioner that returns an index within the range it is
    given, every range [quick_sort(array, low, high)] hands to the
    partitioner lies inside [[low, high]], however the call completes. *)
Theorem quick_sort_partitions_inside_range (pa : partitioner) :
  pivot_index_within_range pa ->
  forall fuel low high w r w',
    quick_sort pa fuel low high w = Some (r, w') ->
    exists calls,
      pa_log w' = pa_log w ++ calls /\ calls_within low high calls.
Proof.
  intros Hidx fuel low high w r w' Hrun.
  destruct (quick_sort_calls pa fuel Hidx low high w r w' Hrun)
    as (calls & Hlog & Hin & _).
  eauto.
Qed.

Lemma quick_sort_partitions_inside_range_witness :
  exists calls,
    pa_log (World [9; 0; 1; 2; 3] [(1, 4); (2, 4); (2, 3)])
      = pa_log (World [9; 3; 1; 2; 0] []) ++ calls /\
    calls_within 1 4 calls.
Proof.
  apply (quick_sort_partitions_inside_range partition_array
           partition_array_index 4 1 4
           (World [9; 3; 1; 2; 0] []) (Normal tt)
           (World [9; 0; 1; 2; 3] [(1, 4); (2, 4); (2, 3)])).
  reflexivity.
Defined.

(** X3.  With a partitioner that returns an index within the range it is
    given, [quick_sort(array, low, high)] calls the partitioner at most
    [high - low] times (never, when [high <= low]). *)
Theorem quick_sort_partitioner_call_count (pa : partitioner) :
  pivot_index_within_range pa ->
  forall fuel low high w r w',
    quick_sort pa fuel low high w = Some (r, w') ->
    (length (pa_log w') <= length (pa_log w) + Z.to_nat (high - low))%nat.
Proof.
  intros Hidx fuel low high w r w' Hrun.
  destruct (quick_sort_calls pa fuel Hidx low high w r w' Hrun)
    as (calls & Hlog & _ & Hlen).
  rewrite Hlog, length_app. lia.
Qed.

Lemma quick_sort_partitioner_call_count_witness :
  (length (pa_log (World [2; 2; 2; 2]%Z [(0, 3); (1, 3); (2, 3)]%Z))
   <= length (pa_log (World [2; 2; 2; 2]%Z [])) + Z.to_nat (3 - 0))%nat.
Proof.
  apply (quick_sort_partitioner_call_count partition_array
           partition_array_index 4 0 3
           (World [2; 2; 2; 2] []) (Normal tt)
           (World [2; 2; 2; 2] [(0, 3); (1, 3); (2, 3)])).
  reflexivity.
Defined.

(** X5.  The recursion is not balanced: when the partitioner always
    returns an end of the range it is given, a call on [[low, high]] does
    not complete within a depth of [high - low]. *)
Theorem quick_sort_extremal_pivot_depth (pa : partitioner) :
  (forall a low high,
      low < high ->
      exists a', pa a low high = (Normal low, a') \/
                 pa a low high = (Normal high, a')) ->
  forall fuel low high w,
    (fuel <= Z.to_nat (high - low))%nat ->
    quick_sort pa fuel low high w = None.
Proof.
  intros Hend. induction fuel as [|fuel IH]; intros low high w Hfuel;
    [reflexivity|].
  rewrite quick_sort_unfold.
  destruct (Z.gtb_spec high low) as [Hgt|Hle]; [|lia].
  destruct (Hend (cells w) low high ltac:(lia)) as [a' [Hpa|Hpa]]; rewrite Hpa.
  - destruct fuel as [|fuel]; [reflexivity|].
    rewrite quick_sort_base_case by lia.
    apply IH. lia.
  - rewrite IH by lia. reflexivity.
Qed.

Lemma quick_sort_extremal_pivot_depth_witness :
  quick_sort (fun a low high => (Normal high, a)) 3 0 3 (World [1; 2; 3; 4] [])
    = None.
Proof.
  apply (quick_sort_extremal_pivot_depth (fun a low high => (Normal high, a))).
  - intros a low high Hlt. exists a. right. reflexivity.
  - simpl. lia.
Defined.

(** X6.  The index the partitioner returns is used unchecked: if on a
    range with [high > low] the partitioner always returns [high + 1],
    the first recursive call is again on [[low, high]] and the call
    completes at no depth. *)
Theorem quick_sort_pivot_index_unchecked (pa : partitioner) (low high : Z) :
  high > low ->
  (forall a, exists a', pa a low high = (Normal (high + 1), a')) ->
  forall fuel w, quick_sort pa fuel low high w = None.
Proof.
  intros Hgt Hpa. induction fuel as [|fuel IH]; intros w; [reflexivity|].
  rewrite quick_sort_unfold.
  destruct (Z.gtb_spec high low) as [_|Hle]; [|lia].
  destruct (Hpa (cells w)) as [a' ->].
  replace (high + 1 - 1) with high by lia.
  rewrite IH. reflexivity.
Qed.

Lemma quick_sort_pivot_index_unchecked_witness :
  quick_sort (fun a low high => (Normal (high + 1), a)) 100 0 1
    (World [2; 1] []) = None.
Proof.
  apply (quick_sort_pivot_index_unchecked
           (fun a low high => (Normal (high + 1), a)) 0 1).
  - lia.
  - intros a. exists a. reflexivity.
Defined.

(** ** What a completed call leaves in the list *)

Section DriverResult.

Variable pa : partitioner.

(** However the call completes, a partitioner that only rearranges
    inside its range makes the call leave a permutation. *)
Lemma quick_sort_permutes fuel :
  pivot_index_within_range pa ->
  mutates_only_within_range pa ->
  rearranges pa ->
  forall low high w r w',
    0 <= low -> high < Z.of_nat (length (cells w)) ->
    quick_sort pa fuel low high w = Some (r, w') ->
    cells w' ≡ₚ cells w.
Proof.
  intros Hidx Hmut Hperm.
  induction fuel as [|fuel IH]; intros low high w r w' Hlow Hhigh Hrun;
    [discriminate|].
  rewrite quick_sort_unfold in Hrun.
  destruct (Z.gtb_spec high low) as [Hgt|Hle]; [|simplify_eq; reflexivity].
  destruct (pa (cells w) low high) as [r0 c] eqn:Hpa.
  destruct (Hmut (cells w) low high r0 c Hlow ltac:(lia) Hhigh Hpa)
    as [Hlen1 _].
  pose proof (Hperm (cells w) low high r0 c Hlow ltac:(lia) Hhigh Hpa) as Hp1.
  destruct r0 as [p|e]; [|simplify_eq; assumption].
  assert (low <= p <= high) as Hp by (eapply Hidx; [|exact Hpa]; lia).
  destruct (quick_sort pa fuel low (p - 1) _) as [[r1 w1]|] eqn:Hleft;
    [|discriminate].
  pose proof Hleft as Hframe.
  apply (quick_sort_frame pa Hidx Hmut) in Hframe as [Hlen2 _];
    simpl; [|lia..].
  apply IH in Hleft; simpl; [|lia..]. simpl in Hleft, Hlen2.
  destruct r1 as [[]|e1].
  - apply IH in Hrun; [|lia..]. rewrite Hrun, Hleft. assumption.
  - simplify_eq. rewrite Hleft. assumption.
Qed.

Hypothesis pa_contract : partitioner_contract pa.

(** The result of a call on a range of valid indices, in one statement. *)
Lemma quick_sort_run fuel a log low high :
  0 <= low -> high < Z.of_nat (length a) ->
  (Z.to_nat (high - low) < fuel)%nat ->
  exists a' log',
    quick_sort pa fuel low high (World a log) = Some (Normal tt, World a' log') /\
    length a' = length a /\
    untouched_outside a a' low high /\
    a' ≡ₚ a /\
    sorted_range a' low high.
Proof.
  destruct pa_contract as (Hret & Hidx & Hinv & Hmut & Hperm).
  intros Hlow Hhigh Hfuel.
  destruct (quick_sort_sorts pa Hidx Hmut Hret Hinv Hperm fuel low high
              (World a log) Hlow Hhigh Hfuel)
    as (a' & calls & Hrun & Hlen & Hout & Hp & Hsorted & _).
  exists a', (log ++ calls). auto.
Qed.

End DriverResult.

(** X7.  With a partitioner that returns an index within its range and
    only rearranges elements inside the range it is given, a call on a
    range of valid indices leaves a permutation of the list, and of the
    sub-range, however it completes: an error part-way loses and
    duplicates nothing. *)
Theorem quick_sort_keeps_elements (pa : partitioner) :
  pivot_index_within_range pa ->
  mutates_only_within_range pa ->
  rearranges pa ->
  forall fuel low high w r w',
    0 <= low -> high < Z.of_nat (length (cells w)) ->
    quick_sort pa fuel low high w = Some (r, w') ->
    cells w' ≡ₚ cells w /\
    slice (cells w') low high ≡ₚ slice (cells w) low high.
Proof.
  intros Hidx Hmut Hperm fuel low high w r w' Hlow Hhigh Hrun.
  pose proof (quick_sort_permutes pa fuel Hidx Hmut Hperm low high w r w'
                Hlow Hhigh Hrun) as Hp.
  split; [assumption|].
  apply slice_perm; [assumption| |assumption].
  apply (quick_sort_frame pa Hidx Hmut fuel low high w r w'); assumption.
Qed.

Lemma quick_sort_keeps_elements_witness :
  cells (World [9; 0; 1; 2; 3] [(1, 4); (2, 4); (2, 3)])
    ≡ₚ cells (World [9; 3; 1; 2; 0] []) /\
  slice (cells (World [9; 0; 1; 2; 3] [(1, 4); (2, 4); (2, 3)])) 1 4
    ≡ₚ slice (cells (World [9; 3; 1; 2; 0] [])) 1 4.
Proof.
  apply (quick_sort_keeps_elements partition_array
           partition_array_index partition_array_frame
           partition_array_rearranges 4 1 4
           (World [9; 3; 1; 2; 0] []) (Normal tt)
           (World [9; 0; 1; 2; 3] [(1, 4); (2, 4); (2, 3)]));
    [lia | vm_compute; reflexivity | reflexivity].
Defined.

(** The first-element policy meets the contract as well. *)
Lemma swap_items_in_range (a : list Z) low high :
  0 <= low -> low <= high -> high < Z.of_nat (length a) ->
  exists a1,
    swap_items a low high = (Normal tt, a1) /\
    length a1 = length a /\
    a1 ≡ₚ a /\
    untouched_outside a a1 low high.
Proof.
  intros Hlow Hle Hhigh.
  destruct (lookup_lt_is_Some_2 a (Z.to_nat low) ltac:(lia)) as [x Hx].
  destruct (lookup_lt_is_Some_2 a (Z.to_nat high) ltac:(lia)) as [y Hy].
  rewrite (swap_items_valid a low high x y) by (assumption || lia).
  eexists. split; [reflexivity|]. split; [|split].
  - rewrite !length_insert. reflexivity.
  - apply Permutation_insert_swap; assumption.
  - intros i Hi. rewrite !list_lookup_insert_ne by lia. reflexivity.
Qed.

Lemma partition_first_contract : partitioner_contract partition_first.
Proof.
  destruct partition_array_contract as (Hret & Hidx & Hinv & Hmut & Hperm).
  unfold partition_first. split; [|split; [|split; [|split]]].
  - intros a low high Hlow Hle Hhigh.
    destruct (swap_items_in_range a low high Hlow Hle Hhigh)
      as (a1 & -> & Hlen1 & _).
    apply Hret; [assumption..|]. rewrite Hlen1. assumption.
  - intros a low high p a' Hle Hrun.
    destruct (swap_items a low high) as [[[]|e] a1]; [|discriminate].
    apply (Hidx a1 low high p a'); assumption.
  - intros a low high p a' Hlow Hle Hhigh Hrun.
    destruct (swap_items_in_range a low high Hlow Hle Hhigh)
      as (a1 & Hswap & Hlen1 & _).
    rewrite Hswap in Hrun.
    apply (Hinv a1 low high p a'); try assumption. rewrite Hlen1. assumption.
  - intros a low high r a' Hlow Hle Hhigh Hrun.
    destruct (swap_items_in_range a low high Hlow Hle Hhigh)
      as (a1 & Hswap & Hlen1 & _ & Hout1).
    rewrite Hswap in Hrun.
    destruct (Hmut a1 low high r a') as [Hlen2 Hout2]; try assumption.
    { rewrite Hlen1. assumption. }
    split; [congruence|]. intros i Hi. rewrite Hout2, Hout1 by assumption.
    reflexivity.
  - intros a low high r a' Hlow Hle Hhigh Hrun.
    destruct (swap_items_in_range a low high Hlow Hle Hhigh)
      as (a1 & Hswap & Hlen1 & Hp1 & _).
    rewrite Hswap in Hrun. rewrite <- Hp1.
    apply (Hperm a1 low high r a'); try assumption. rewrite Hlen1. assumption.
Qed.

(** A list in non-decreasing order is in order on each of its ranges. *)
Lemma Sorted_sorted_range (a : list Z) low high :
  Sorted Z.le a -> sorted_range a low high.
Proof.
  intros Hs. apply (Sorted_StronglySorted Z.le) in Hs.
  intros i j x y _ Hij _. clear low high. revert i j x y Hij.
  induction Hs as [|x0 l Hl IH Hall]; intros i j x y Hij Hx Hy; [discriminate|].
  destruct i as [|i], j as [|j]; simpl in Hx, Hy; simplify_eq; try lia.
  - rewrite Forall_forall in Hall. apply Hall.
    apply list_elem_of_lookup. eauto.
  - apply (IH i j); [lia | assumption..].
Qed.

(** X8.  The list a call leaves does not depend on the pivot policy: two
    partitioners that both meet the contract lead to the same final list
    on every list and every range of valid indices. *)
Theorem quick_sort_policy_independent (pa1 pa2 : partitioner) :
  partitioner_contract pa1 ->
  partitioner_contract pa2 ->
  forall (array : list Z) log1 log2 (low high : Z) (fuel1 fuel2 : nat),
    0 <= low -> high < Z.of_nat (length array) ->
    (Z.to_nat (high - low) < fuel1)%nat ->
    (Z.to_nat (high - low) < fuel2)%nat ->
    exists array' log1' log2',
      quick_sort pa1 fuel1 low high (World array log1)
        = Some (Normal tt, World array' log1') /\
      quick_sort pa2 fuel2 low high (World array log2)
        = Some (Normal tt, World array' log2').
Proof.
  intros Hc1 Hc2 array log1 log2 low high fuel1 fuel2 Hlow Hhigh Hf1 Hf2.
  destruct (quick_sort_run pa1 Hc1 fuel1 array log1 low high Hlow Hhigh Hf1)
    as (a1 & log1' & Hrun1 & _ & Hout1 & Hp1 & Hs1).
  destruct (quick_sort_run pa2 Hc2 fuel2 array log2 low high Hlow Hhigh Hf2)
    as (a2 & log2' & Hrun2 & _ & Hout2 & Hp2 & Hs2).
  assert (a2 = a1) as ->; [|eauto].
  apply (range_sorted_unique a2 a1 low high); try assumption.
  - intros i Hi. rewrite Hout1, Hout2 by assumption. reflexivity.
  - rewrite Hp1, Hp2. reflexivity.
Qed.

Lemma quick_sort_policy_independent_witness :
  exists array' log1' log2',
    quick_sort partition_array 10 0 9 (World l1 [])
      = Some (Normal tt, World array' log1') /\
    quick_sort partition_first 10 0 9 (World l1 [])
      = Some (Normal tt, World array' log2').
Proof.
  apply (quick_sort_policy_independent partition_array partition_first
           partition_array_contract partition_first_contract
           l1 [] [] 0 9 10 10);
    [lia | vm_compute; reflexivity | simpl; lia | simpl; lia].
Defined.

(** X9.  With a partitioner that meets the contract, a call on a range of
    valid indices leaves the list with the sub-range replaced by its
    merge-sorted elements and everything before and after it in place. *)
Theorem quick_sort_agrees_with_merge_sort (pa : partitioner) :
  partitioner_contract pa ->
  forall (array : list Z) log (low high : Z) (fuel : nat),
    0 <= low -> high < Z.of_nat (length array) ->
    (Z.to_nat (high - low) < fuel)%nat ->
    exists log',
      quick_sort pa fuel low high (World array log)
        = Some (Normal tt,
                World (take (Z.to_nat low) array
                         ++ merge_sort Z.le (slice array low high)
                         ++ drop (Z.to_nat low + range_size low high) array)
                      log').
Proof.
  intros Hc array log low high fuel Hlow Hhigh Hfuel.
  destruct (quick_sort_run pa Hc fuel array log low high Hlow Hhigh Hfuel)
    as (a' & log' & Hrun & _ & Hout & Hp & Hs).
  exists log'. rewrite Hrun. do 3 f_equal.
  rewrite (split_at_range a' (Z.to_nat low) (range_size low high)) at 1.
  f_equal; [|f_equal].
  - apply list_eq. intros i. rewrite !lookup_take.
    case_decide; [|reflexivity]. apply Hout. lia.
  - apply (Sorted_unique Z.le).
    + apply (sorted_range_slice a' low high); assumption.
    + apply Sorted_merge_sort; apply _.
    + rewrite merge_sort_Permutation. apply slice_perm; assumption.
  - apply list_eq. intros i. rewrite !lookup_drop. apply Hout.
    unfold range_size. lia.
Qed.

Lemma quick_sort_agrees_with_merge_sort_witness :
  exists log',
    quick_sort partition_array 4 2 5 (World l1 [])
      = Some (Normal tt,
              World (take (Z.to_nat 2) l1
                       ++ merge_sort Z.le (slice l1 2 5)
                       ++ drop (Z.to_nat 2 + range_size 2 5) l1)
                    log').
Proof.
  apply (quick_sort_agrees_with_merge_sort partition_array
           partition_array_contract l1 [] 2 5 4);
    [lia | vm_compute; reflexivity | simpl; lia].
Defined.

(** X10.  With a partitioner that meets the contract, a call on a range
    that is already in non-decreasing order leaves the whole list exactly
    as it was. *)
Theorem quick_sort_sorted_range_unchanged (pa : partitioner) :
  partitioner_contract pa ->
  forall (array : list Z) log (low high : Z) (fuel : nat),
    0 <= low -> high < Z.of_nat (length array) ->
    sorted_range array low high ->
    (Z.to_nat (high - low) < fuel)%nat ->
    exists log',
      quick_sort pa fuel low high (World array log)
        = Some (Normal tt, World array log').
Proof.
  intros Hc array log low high fuel Hlow Hhigh Hsorted Hfuel.
  destruct (quick_sort_run pa Hc fuel array log low high Hlow Hhigh Hfuel)
    as (a' & log' & Hrun & _ & Hout & Hp & Hs).
  assert (a' = array) as ->; [|eauto].
  apply (range_sorted_unique a' array low high); assumption.
Qed.

Lemma quick_sort_sorted_range_unchanged_witness :
  exists log',
    quick_sort partition_array 4 0 3 (World [1; 2; 3; 4] [])
      = Some (Normal tt, World [1; 2; 3; 4] log').
Proof.
  apply (quick_sort_sorted_range_unchanged partition_array
           partition_array_contract [1; 2; 3; 4] [] 0 3 4);
    [lia | vm_compute; reflexivity | | simpl; lia].
  apply Sorted_sorted_range. repeat constructor; lia.
Defined.

(** X11.  With a partitioner that meets the contract, sorting a range
    inside [[low, high]] first and [[low, high]] afterwards leaves the
    same list as sorting [[low, high]] alone. *)
Theorem quick_sort_inner_range_absorbed (pa : partitioner) :
  partitioner_contract pa ->
  forall (array : list Z) log (low high low' high' : Z) (fuel : nat),
    0 <= low -> low <= low' -> high' <= high ->
    high < Z.of_nat (length array) ->
    (Z.to_nat (high - low) < fuel)%nat ->
    exists inner log1 final log2 log3,
      quick_sort pa fuel low' high' (World array log)
        = Some (Normal tt, World inner log1) /\
      quick_sort pa fuel low high (World inner log1)
        = Some (Normal tt, World final log2) /\
      quick_sort pa fuel low high (World array log)
        = Some (Normal tt, World final log3).
Proof.
  intros Hc array log low high low' high' fuel Hlow Hlow' Hhigh' Hhigh Hfuel.
  destruct (quick_sort_run pa Hc fuel array log low' high')
    as (inner & log1 & Hrun1 & Hlen1 & Hout1 & Hp1 & _); [lia..|].
  destruct (quick_sort_run pa Hc fuel inner log1 low high)
    as (final & log2 & Hrun2 & _ & Hout2 & Hp2 & Hs2); [lia..|].
  destruct (quick_sort_run pa Hc fuel array log low high)
    as (direct & log3 & Hrun3 & _ & Hout3 & Hp3 & Hs3); [lia..|].
  assert (direct = final) as ->; [|eauto 10].
  apply (range_sorted_unique direct final low high); try assumption.
  - intros i Hi. rewrite Hout3, Hout2, Hout1 by lia. reflexivity.
  - rewrite Hp3, Hp2, Hp1. reflexivity.
Qed.

Lemma quick_sort_inner_range_absorbed_witness :
  exists inner log1 final log2 log3,
    quick_sort partition_array 10 2 5 (World l1 [])
      = Some (Normal tt, World inner log1) /\
    quick_sort partition_array 10 0 9 (World inner log1)
      = Some (Normal tt, World final log2) /\
    quick_sort partition_array 10 0 9 (World l1 [])
      = Some (Normal tt, World final log3).
Proof.
  apply (quick_sort_inner_range_absorbed partition_array
           partition_array_contract l1 [] 0 9 2 5 10);
    [lia | lia | lia | vm_compute; reflexivity | simpl; lia].
Defined.

(** X12.  With a partitioner that meets the contract, sorting two disjoint
    ranges leaves the same list in either order. *)
Theorem quick_sort_disjoint_ranges_commute (pa : partitioner) :
  partitioner_contract pa ->
  forall (array : list Z) log (lo1 hi1 lo2 hi2 : Z) (fuel : nat),
    0 <= lo1 <= hi1 -> hi1 < lo2 <= hi2 ->
    hi2 < Z.of_nat (length array) ->
    (Z.to_nat (hi1 - lo1) < fuel)%nat ->
    (Z.to_nat (hi2 - lo2) < fuel)%nat ->
    exists first logA second logB final logC logD,
      quick_sort pa fuel lo1 hi1 (World array log)
        = Some (Normal tt, World first logA) /\
      quick_sort pa fuel lo2 hi2 (World first logA)
        = Some (Normal tt, World final logC) /\
      quick_sort pa fuel lo2 hi2 (World array log)
        = Some (Normal tt, World second logB) /\
      quick_sort pa fuel lo1 hi1 (World second logB)
        = Some (Normal tt, World final logD).
Proof.
  intros Hc array log lo1 hi1 lo2 hi2 fuel H1 H2 Hlen Hf1 Hf2.
  destruct (quick_sort_run pa Hc fuel array log lo1 hi1)
    as (b & logA & HrunA & HlenA & HoutA & HpA & HsA); [lia..|].
  destruct (quick_sort_run pa Hc fuel b logA lo2 hi2)
    as (c & logC & HrunC & HlenC & HoutC & HpC & HsC); [lia..|].
  destruct (quick_sort_run pa Hc fuel array log lo2 hi2)
    as (b' & logB & HrunB & HlenB & HoutB & HpB & HsB); [lia..|].
  destruct (quick_sort_run pa Hc fuel b' logB lo1 hi1)
    as (c' & logD & HrunD & HlenD & HoutD & HpD & HsD); [lia..|].
  assert (c' = c) as ->; [|eauto 12].
  apply list_eq. intros i.
  destruct (decide (lo1 <= Z.of_nat i <= hi1)) as [Hi1|Hi1].
  - rewrite (HoutC i) by lia.
    apply (sorted_slices_equal c' b lo1 hi1); try assumption; [lia|].
    rewrite (slice_perm b' c' lo1 hi1) by (assumption || lia).
    rewrite (slice_perm array b lo1 hi1) by (assumption || lia).
    rewrite (slice_ext b' array lo1 hi1); [reflexivity | lia |].
    intros k Hk. apply HoutB. lia.
  - destruct (decide (lo2 <= Z.of_nat i <= hi2)) as [Hi2|Hi2].
    + rewrite (HoutD i) by lia.
      apply (sorted_slices_equal b' c lo2 hi2); try assumption; [lia|].
      rewrite (slice_perm b c lo2 hi2) by (assumption || lia).
      rewrite (slice_perm array b' lo2 hi2) by (assumption || lia).
      rewrite (slice_ext b array lo2 hi2); [reflexivity | lia |].
      intros k Hk. apply HoutA. lia.
    + rewrite HoutD, HoutB, HoutC, HoutA by assumption. reflexivity.
Qed.

Lemma quick_sort_disjoint_ranges_commute_witness :
  exists first logA second logB final logC logD,
    quick_sort partition_array 5 0 3 (World l1 [])
      = Some (Normal tt, World first logA) /\
    quick_sort partition_array 5 5 9 (World first logA)
      = Some (Normal tt, World final logC) /\
    quick_sort partition_array 5 5 9 (World l1 [])
      = Some (Normal tt, World second logB) /\
    quick_sort partition_array 5 0 3 (World second logB)
      = Some (Normal tt, World final logD).
Proof.
  apply (quick_sort_disjoint_ranges_commute partition_array
           partition_array_contract l1 [] 0 3 5 9 5);
    [lia | lia | vm_compute; reflexivity | simpl; lia | simpl; lia].
Defined.
